(** * G+Smo: composition of preconditioners and single patch preconditioners

    A shallow embedding of

      - [src/gsSolver/gsCompositionOfPreconditionersOp.h]
      - [src/gsSolver/gsSinglePatchPreconditioners.h] (constructors)

    Conventions of the embedding.

    - [index_t] is the library's signed index type (the loop of [stepT]
      counts down to [-1]); its typedef is in a header outside [src/].
      It is embedded as [Z], and a container size converted to [index_t]
      is the size itself: the type is taken to hold every size that
      occurs.
    - [gsMatrix<T>] is an abstract type [Mat]; the handle returned by
      [underlyingOp()] is an abstract type [LinOp].
    - A [BasePtr] is a shared pointer, possibly null: [option] of the object
      it points to.  The constituents' methods are [const], so sharing one
      preconditioner between several compositions is not observable and the
      pointee is embedded by value.
    - A call [op.step(f, x)] works on two caller objects: [f], passed by
      const reference, and [x], passed by reference and updated in place.
      The two are distinct objects; their contents before and after a call
      are a [frame].
    - Dereferencing a null pointer and [operator[]] out of range are
      undefined behaviour: the result [Undefined]. *)

From Equations Require Import Equations.
From stdpp Require Import base option list strings gmap.
From Stdlib Require Import ZArith Lia.

Local Open Scope Z_scope.

(** ** Outcomes of a call *)

Inductive result (A : Type) : Type :=
| Ok (a : A)
| ContractViolation (message : string)
| Undefined.
Arguments Ok {A} a.
Arguments ContractViolation {A} message.
Arguments Undefined {A}.

#[global] Instance result_ret : MRet result := fun A a => Ok a.
#[global] Instance result_bind : MBind result := fun A B k r =>
  match r with
  | Ok a => k a
  | ContractViolation message => ContractViolation message
  | Undefined => Undefined
  end.

(** Modelled from the spec: the macro [GISMO_ASSERT] is defined in a header
    outside [src/].  A failed assertion is a fatal contract violation that
    carries the message; a successful one has no effect. *)
Definition GISMO_ASSERT (cond : bool) (message : string) : result unit :=
  if cond then Ok tt else ContractViolation message.

(** [v[i]] of a [std::vector], with an [index_t] subscript. *)
Definition vec_at {A : Type} (v : list A) (i : Z) : result A :=
  if decide (0 ≤ i) then
    match v !! Z.to_nat i with
    | Some a => Ok a
    | None => Undefined
    end
  else Undefined.

(** [p->...] of a shared pointer. *)
Definition deref {A : Type} (p : option A) : result A :=
  match p with
  | Some a => Ok a
  | None => Undefined
  end.

(** ** The interface [gsPreconditionerOp<T>] *)

Module gsPreconditionerOp.

(** The virtual member functions that the composition calls; the class is
    declared in another header and its objects are given by the caller.
    [step] and [stepT] give the new contents of [x] from the contents of
    [f] and [x]. *)
Record t (Mat LinOp : Type) : Type := Build {
  step : Mat → Mat → Mat;
  stepT : Mat → Mat → Mat;
  underlyingOp : LinOp;
  rows : Z;
  cols : Z
}.
Arguments Build {Mat LinOp}.
Arguments step {Mat LinOp}.
Arguments stepT {Mat LinOp}.
Arguments underlyingOp {Mat LinOp}.
Arguments rows {Mat LinOp}.
Arguments cols {Mat LinOp}.

End gsPreconditionerOp.

(** The two argument objects of a call [step(f, x)] or [stepT(f, x)]. *)
Record frame (Mat : Type) : Type := Frame {
  rhs : Mat;
  iterate : Mat
}.
Arguments Frame {Mat}.
Arguments rhs {Mat}.
Arguments iterate {Mat}.

(** ** The class [gsCompositionOfPreconditionersOp<T>] *)

Module gsCompositionOfPreconditionersOp.

Section Class.
Context {Mat LinOp : Type}.

Local Abbreviation Op := (gsPreconditionerOp.t Mat LinOp).
Local Abbreviation BasePtr := (option (gsPreconditionerOp.t Mat LinOp)).

Record t : Type := Build {
  m_sz : Z;
  m_ops : list BasePtr
}.

(** [gsCompositionOfPreconditionersOp()] *)
Definition ctor : t :=
  {| m_sz := 0; m_ops := [] |}.

(** [gsCompositionOfPreconditionersOp(const std::vector<BasePtr>& ops)] *)
Definition ctor_vector (ops : list BasePtr) : t :=
  {| m_sz := Z.of_nat (length ops); m_ops := ops |}.

(** [gsCompositionOfPreconditionersOp(op0, op1)]: a vector of two null
    pointers, then the two assignments. *)
Definition ctor2 (op0 op1 : BasePtr) : t :=
  {| m_sz := 2;
     m_ops := <[1%nat := op1]> (<[0%nat := op0]> (replicate 2 None)) |}.

(** [gsCompositionOfPreconditionersOp(op0, op1, op2)] *)
Definition ctor3 (op0 op1 op2 : BasePtr) : t :=
  {| m_sz := 3;
     m_ops := <[2%nat := op2]>
                (<[1%nat := op1]> (<[0%nat := op0]> (replicate 3 None))) |}.

(** [make(...)]: the constructors behind a unique pointer. *)
Definition make_vector (ops : list BasePtr) : t := ctor_vector ops.
Definition make2 (op0 op1 : BasePtr) : t := ctor2 op0 op1.
Definition make3 (op0 op1 op2 : BasePtr) : t := ctor3 op0 op1 op2.

(** [addOperator(op)]: [m_sz++; m_ops.push_back(op);] *)
Definition addOperator (c : t) (op : BasePtr) : t :=
  {| m_sz := m_sz c + 1; m_ops := m_ops c ++ [op] |}.

(** The calls [m_ops[i]->step(f,x)] and [m_ops[i]->stepT(f,x)]. *)
Definition apply_step (P : Op) (s : frame Mat) : frame Mat :=
  {| rhs := rhs s;
     iterate := gsPreconditionerOp.step P (rhs s) (iterate s) |}.

Definition apply_stepT (P : Op) (s : frame Mat) : frame Mat :=
  {| rhs := rhs s;
     iterate := gsPreconditionerOp.stepT P (rhs s) (iterate s) |}.

(** [for ( ; i<m_sz; ++i ) m_ops[i]->step(f,x);] *)
Equations? step_loop (c : t) (i : Z) (s : frame Mat) : result (frame Mat)
  by wf (Z.to_nat (m_sz c - i)) lt :=
  step_loop c i s with decide (i < m_sz c) := {
    | left _ =>
        match vec_at (m_ops c) i ≫= deref with
        | Ok P => step_loop c (i + 1) (apply_step P s)
        | ContractViolation message => ContractViolation message
        | Undefined => Undefined
        end
    | right _ => Ok s }.
Proof. lia. Qed.

(** [step(f, x)]: the loop from [i = 0]. *)
Definition step (c : t) (s : frame Mat) : result (frame Mat) :=
  step_loop c 0 s.

(** [for ( ; i>=0; --i ) m_ops[i]->stepT(f,x);] *)
Equations? stepT_loop (c : t) (i : Z) (s : frame Mat) : result (frame Mat)
  by wf (Z.to_nat (i + 1)) lt :=
  stepT_loop c i s with decide (i >= 0) := {
    | left _ =>
        match vec_at (m_ops c) i ≫= deref with
        | Ok P => stepT_loop c (i - 1) (apply_stepT P s)
        | ContractViolation message => ContractViolation message
        | Undefined => Undefined
        end
    | right _ => Ok s }.
Proof. lia. Qed.

(** [stepT(f, x)]: the loop from [i = m_sz-1]. *)
Definition stepT (c : t) (s : frame Mat) : result (frame Mat) :=
  stepT_loop c (m_sz c - 1) s.

Definition underlyingOp (c : t) : result LinOp :=
  _ ← GISMO_ASSERT (bool_decide (m_sz c > 0))
        "gsCompositionOfPreconditionersOp::underlyingOp does not work for 0 operators.";
  P ← vec_at (m_ops c) 0 ≫= deref;
  mret (gsPreconditionerOp.underlyingOp P).

Definition rows (c : t) : result Z :=
  _ ← GISMO_ASSERT (bool_decide (m_sz c > 0))
        "gsCompositionOfPreconditionersOp::rows does not work for 0 operators.";
  P ← vec_at (m_ops c) 0 ≫= deref;
  mret (gsPreconditionerOp.rows P).

Definition cols (c : t) : result Z :=
  _ ← GISMO_ASSERT (bool_decide (m_sz c > 0))
        "gsCompositionOfPreconditionersOp::rows does not work for 0 operators.";
  P ← vec_at (m_ops c) 0 ≫= deref;
  mret (gsPreconditionerOp.cols P).

(** The object after a call of a public member function.  [addOperator] is
    the only one that is not [const]. *)
Inductive member : Type :=
| AddOperator (op : BasePtr)
| Step (s : frame Mat)
| StepT (s : frame Mat)
| UnderlyingOp
| Rows
| Cols.

Definition object_after (c : t) (m : member) : t :=
  match m with
  | AddOperator op => addOperator c op
  | Step _ | StepT _ | UnderlyingOp | Rows | Cols => c
  end.

(** *** Vocabulary of the specification *)

(** The class invariant: [m_sz == m_ops.size()]. *)
Definition invariant (c : t) : Prop :=
  m_sz c = Z.of_nat (length (m_ops c)).

(** [c] is the composition of the preconditioners [P_0 .. P_{n-1}]. *)
Definition composition_of (c : t) (Ps : list Op) : Prop :=
  invariant c ∧ m_ops c = Some <$> Ps.

(** One call after the other along a list of pointers, first element
    first. *)
Fixpoint sweep (call : Op → frame Mat → frame Mat) (ops : list BasePtr)
    (s : frame Mat) : result (frame Mat) :=
  match ops with
  | [] => Ok s
  | p :: ops' => P ← deref p; sweep call ops' (call P s)
  end.

End Class.

Arguments t : clear implicits.
Arguments member : clear implicits.

End gsCompositionOfPreconditionersOp.

(** ** The class [gsSinglePatchPreconditioners<T>] *)

Module dirichlet.

(** Modelled from the spec: the enumeration [dirichlet::strategy] is declared
    in a header outside [src/]; the spec names the strategies elimination,
    Nitsche and penalty. *)
Inductive strategy : Type :=
| elimination
| nitsche
| penalty.

End dirichlet.

Module gsOptionList.

Section Class.
Context {Value : Type}.

(** The embedding of an integer into the values an option can hold. *)
Variable IntValue : Z → Value.

(** Modelled from the spec: the class [gsOptionList] is defined outside
    [src/].  It is the configuration record, a finite map from the
    labels of the options to their values, and [setInt(label, value)] sets
    the entry [label] to the integer [value]. *)
Definition setInt (o : gmap string Value) (label : string) (value : Z)
    : gmap string Value :=
  <[label := IntValue value]> o.

End Class.

End gsOptionList.

Module gsSinglePatchPreconditioners.

Section Class.
Context {gsBasis gsBoundaryConditions Value : Type}.

Variable IntValue : Z → Value.

(** The cast [(index_t) _dirichlet]: the values of the enumerators. *)
Variable strategy_index : dirichlet.strategy → Z.

(** [gsGenericAssembler<T>::defaultOptions()] *)
Variable defaultOptions : gmap string Value.

Record t : Type := Build {
  m_basis : gsBasis;
  m_bc : gsBoundaryConditions;
  m_options : gmap string Value
}.

(** [gsSinglePatchPreconditioners(_basis, _bc, _dirichlet)] *)
Definition ctor (_basis : gsBasis) (_bc : gsBoundaryConditions)
    (_dirichlet : dirichlet.strategy) : t :=
  {| m_basis := _basis;
     m_bc := _bc;
     m_options := gsOptionList.setInt IntValue defaultOptions
                    "DirichletStrategy" (strategy_index _dirichlet) |}.

(** The same constructor with the default argument
    [_dirichlet = dirichlet::elimination]. *)
Definition ctor_default (_basis : gsBasis) (_bc : gsBoundaryConditions) : t :=
  ctor _basis _bc dirichlet.elimination.

(** [gsSinglePatchPreconditioners(_basis, _bc, _opt)] *)
Definition ctor_options (_basis : gsBasis) (_bc : gsBoundaryConditions)
    (_opt : gmap string Value) : t :=
  {| m_basis := _basis; m_bc := _bc; m_options := _opt |}.

End Class.

Arguments t : clear implicits.

End gsSinglePatchPreconditioners.

(** ** Sample objects

    Scalars stand for 1x1 matrices: [Mat = Z], and a linear operator is its
    single coefficient. *)

Module Samples.

(** A Richardson sweep [x += tau * (f - a * x)] for the system [a x = f]. *)
Definition richardson (a tau : Z) : gsPreconditionerOp.t Z Z :=
  gsPreconditionerOp.Build
    (λ f x, x + tau * (f - a * x)) (λ f x, x + tau * (f - a * x)) a 1 1.

(** An exact solver for the system [- x = f]. *)
Definition exact_minus : gsPreconditionerOp.t Z Z :=
  gsPreconditionerOp.Build (λ f _, - f) (λ f _, - f) (-1) 1 1.

(** A preconditioner that logs its number [k] on the iterate. *)
Definition logger (k : Z) : gsPreconditionerOp.t (list Z) unit :=
  gsPreconditionerOp.Build (λ _ x, x ++ [k]) (λ _ x, x ++ [- k]) tt k k.

(** Options: integers and switches. *)
Inductive value : Type :=
| IntValue (z : Z)
| SwitchValue (b : bool).

Definition strategy_index (d : dirichlet.strategy) : Z :=
  match d with
  | dirichlet.elimination => 11
  | dirichlet.nitsche => 13
  | dirichlet.penalty => 12
  end.

Definition defaultOptions : gmap string value :=
  <["DirichletStrategy" := IntValue 0]>
    (<["DirichletValues" := IntValue 100]>
       (<["flipSide" := SwitchValue false]> ∅)).

End Samples.

(** * Properties of the composition *)

Section CompositionFacts.
Context {Mat LinOp : Type}.
Import gsCompositionOfPreconditionersOp.

Local Abbreviation Op := (gsPreconditionerOp.t Mat LinOp).
Local Abbreviation BasePtr := (option (gsPreconditionerOp.t Mat LinOp)).
Local Abbreviation Comp := (gsCompositionOfPreconditionersOp.t Mat LinOp).

Implicit Types (c : Comp) (s : frame Mat) (P Q : Op) (Ps : list Op).
Implicit Types (op : BasePtr) (ops pre suf : list BasePtr).

Lemma vec_at_middle {A : Type} (l1 l2 : list A) (a : A) :
  vec_at (l1 ++ a :: l2) (Z.of_nat (length l1)) = Ok a.
Proof.
  unfold vec_at. destruct (decide _) as [_|]; [|lia].
  rewrite Nat2Z.id, list_lookup_middle; done.
Qed.

Lemma step_loop_unfold c i s :
  step_loop c i s =
    if decide (i < m_sz c) then
      P ← vec_at (m_ops c) i ≫= deref; step_loop c (i + 1) (apply_step P s)
    else Ok s.
Proof.
  simp step_loop. destruct (decide (i < m_sz c)); simpl; [|done].
  destruct (vec_at (m_ops c) i ≫= deref); done.
Qed.

Lemma stepT_loop_unfold c i s :
  stepT_loop c i s =
    if decide (i >= 0) then
      P ← vec_at (m_ops c) i ≫= deref; stepT_loop c (i - 1) (apply_stepT P s)
    else Ok s.
Proof.
  simp stepT_loop. destruct (decide (i >= 0)); simpl; [|done].
  destruct (vec_at (m_ops c) i ≫= deref); done.
Qed.

Lemma sweep_app (call : Op → frame Mat → frame Mat) ops1 ops2 s :
  sweep call (ops1 ++ ops2) s = sweep call ops1 s ≫= sweep call ops2.
Proof.
  revert s. induction ops1 as [|p ops1 IH]; intros s; simpl; [done|].
  destruct p as [P|]; simpl; [apply IH|done].
Qed.

Lemma sweep_pointers (call : Op → frame Mat → frame Mat) Ps s :
  sweep call (Some <$> Ps) s = Ok (foldl (λ s' P, call P s') s Ps).
Proof.
  revert s. induction Ps as [|P Ps IH]; intros s; simpl; [done|apply IH].
Qed.

Lemma foldl_apply_step Ps s :
  foldl (λ s' P, apply_step P s') s Ps =
    Frame (rhs s)
      (foldl (λ x P, gsPreconditionerOp.step P (rhs s) x) (iterate s) Ps).
Proof.
  revert s. induction Ps as [|P Ps IH]; intros [f x]; simpl; [done|].
  rewrite IH. done.
Qed.

Lemma foldl_apply_stepT Ps s :
  foldl (λ s' P, apply_stepT P s') s Ps =
    Frame (rhs s)
      (foldl (λ x P, gsPreconditionerOp.stepT P (rhs s) x) (iterate s) Ps).
Proof.
  revert s. induction Ps as [|P Ps IH]; intros [f x]; simpl; [done|].
  rewrite IH. done.
Qed.

(** The forward loop from index [|pre|] sweeps the rest of the vector. *)
Lemma step_loop_sweep suf : ∀ pre c s,
  invariant c → m_ops c = pre ++ suf →
  step_loop c (Z.of_nat (length pre)) s = sweep apply_step suf s.
Proof.
  induction suf as [|p suf IH]; intros pre c s Hinv Hops;
    rewrite step_loop_unfold; unfold invariant in Hinv;
    rewrite Hinv, Hops, length_app.
  - destruct (decide (_ < _)) as [Hlt|_]; [simpl in Hlt; lia|done].
  - destruct (decide (_ < _)) as [_|Hge]; [|simpl in Hge; lia].
    rewrite vec_at_middle. simpl. destruct p as [P|]; simpl; [|done].
    replace (Z.of_nat (length pre) + 1) with (Z.of_nat (length (pre ++ [Some P])))
      by (rewrite length_app; simpl; lia).
    apply IH; [done|]. rewrite Hops, <- app_assoc. done.
Qed.

(** The backward loop from index [|pre| - 1] sweeps [pre] from its end. *)
Lemma stepT_loop_sweep pre : ∀ suf c s,
  m_ops c = pre ++ suf →
  stepT_loop c (Z.of_nat (length pre) - 1) s = sweep apply_stepT (reverse pre) s.
Proof.
  induction pre as [|p pre IH] using rev_ind; intros suf c s Hops;
    rewrite stepT_loop_unfold.
  - done.
  - rewrite length_app. simpl length.
    destruct (decide (_ >= _)) as [_|Hlt]; [|lia].
    replace (Z.of_nat (length pre + 1) - 1) with (Z.of_nat (length pre)) by lia.
    rewrite Hops, <- app_assoc. simpl. rewrite vec_at_middle.
    rewrite reverse_app. simpl. destruct p as [P|]; simpl; [|done].
    replace (Z.of_nat (length pre)) with (Z.of_nat (length pre) - 1 + 1) at 1 by lia.
    replace (Z.of_nat (length pre) - 1 + 1 - 1) with (Z.of_nat (length pre) - 1) by lia.
    apply (IH (Some P :: suf)). rewrite Hops, <- app_assoc. done.
Qed.

Lemma step_sweep c s :
  invariant c → step c s = sweep apply_step (m_ops c) s.
Proof. intros Hinv. apply (step_loop_sweep (m_ops c) [] c s Hinv). done. Qed.

Lemma stepT_sweep c s :
  invariant c → stepT c s = sweep apply_stepT (reverse (m_ops c)) s.
Proof.
  intros Hinv. unfold stepT. rewrite Hinv.
  apply (stepT_loop_sweep (m_ops c) []). by rewrite app_nil_r.
Qed.

(** Every frame the forward loop returns has the right-hand side it was
    given, whatever the fields of the object. *)
Lemma step_loop_rhs (n : nat) : ∀ c i s s',
  Z.to_nat (m_sz c - i) = n → step_loop c i s = Ok s' → rhs s' = rhs s.
Proof.
  induction n as [n IH] using lt_wf_ind. intros c i s s' Hn.
  rewrite step_loop_unfold. destruct (decide (i < m_sz c)) as [Hlt|_].
  - destruct (vec_at (m_ops c) i ≫= deref) as [P| |]; simpl; [|done..].
    intros Hrun. apply (IH (Z.to_nat (m_sz c - (i + 1)))) in Hrun; [done|lia|done].
  - intros [= <-]. done.
Qed.

Lemma stepT_loop_rhs (n : nat) : ∀ c i s s',
  Z.to_nat (i + 1) = n → stepT_loop c i s = Ok s' → rhs s' = rhs s.
Proof.
  induction n as [n IH] using lt_wf_ind. intros c i s s' Hn.
  rewrite stepT_loop_unfold. destruct (decide (i >= 0)) as [Hge|_].
  - destruct (vec_at (m_ops c) i ≫= deref) as [P| |]; simpl; [|done..].
    intros Hrun. apply (IH (Z.to_nat (i - 1 + 1))) in Hrun; [done|lia|done].
  - intros [= <-]. done.
Qed.

(** The constructors build compositions of the operators they are given. *)
Lemma invariant_ctor : invariant (@ctor Mat LinOp).
Proof. reflexivity. Qed.

Lemma invariant_ctor_vector ops : invariant (ctor_vector ops).
Proof. reflexivity. Qed.

Lemma invariant_ctor2 op0 op1 : invariant (ctor2 op0 op1).
Proof. reflexivity. Qed.

Lemma invariant_ctor3 op0 op1 op2 : invariant (ctor3 op0 op1 op2).
Proof. reflexivity. Qed.

Lemma invariant_addOperator c op : invariant c → invariant (addOperator c op).
Proof.
  unfold invariant. simpl. intros ->. rewrite length_app. simpl. lia.
Qed.

Lemma composition_of_addOperator c Ps Q :
  composition_of c Ps → composition_of (addOperator c (Some Q)) (Ps ++ [Q]).
Proof.
  intros [Hinv Hops]. split; [by apply invariant_addOperator|].
  simpl. rewrite Hops, fmap_app. done.
Qed.

Lemma composition_run_step c Ps s :
  composition_of c Ps →
  step c s = Ok (foldl (λ s' P, apply_step P s') s Ps).
Proof.
  intros [Hinv Hops]. rewrite step_sweep, Hops by done. apply sweep_pointers.
Qed.

Lemma composition_run_stepT c Ps s :
  composition_of c Ps →
  stepT c s = Ok (foldl (λ s' P, apply_stepT P s') s (reverse Ps)).
Proof.
  intros [Hinv Hops]. rewrite stepT_sweep, Hops by done.
  rewrite <- fmap_reverse. apply sweep_pointers.
Qed.

(** * The claims *)

(** C1: for a composition of the preconditioners P_0 .. P_{n-1}, [stepT(f, x)]
    returns with [f] as it was and with [x] the outcome of the constituents'
    [stepT] called in the order P_{n-1}, ..., P_0, every call with the same
    [f] and with the [x] that the call before it left.  For a composition of
    two operators P1, P2 that is P1's [stepT] after P2's [stepT]. *)
Theorem stepT_descending_order c Ps (f x : Mat) :
  composition_of c Ps →
  stepT c (Frame f x) =
    Ok (Frame f (foldl (λ x' P, gsPreconditionerOp.stepT P f x') x (reverse Ps)))
  ∧ (∀ P1 P2, Ps = [P1; P2] →
       stepT c (Frame f x) =
         Ok (Frame f (gsPreconditionerOp.stepT P1 f
                        (gsPreconditionerOp.stepT P2 f x)))).
Proof.
  intros Hc. rewrite (composition_run_stepT c Ps) by done.
  rewrite foldl_apply_stepT. simpl. split; [done|].
  intros P1 P2 ->. done.
Qed.

(** C2: for a composition of the preconditioners P_0 .. P_{n-1}, [step(f, x)]
    returns with [f] as it was and with [x] the outcome of the constituents'
    [step] called in the order P_0, ..., P_{n-1}, every call with the same
    [f] and with the [x] that the call before it left. *)
Theorem step_ascending_order c Ps (f x : Mat) :
  composition_of c Ps →
  step c (Frame f x) =
    Ok (Frame f (foldl (λ x' P, gsPreconditionerOp.step P f x') x Ps)).
Proof.
  intros Hc. rewrite (composition_run_step c Ps) by done.
  rewrite foldl_apply_step. done.
Qed.

(** C3: on the empty composition each of [rows()], [cols()] and
    [underlyingOp()] ends in the contract violation of its assertion; none
    of them returns a value.  The calls are functions of the object, which
    they leave as it is, so every call does the same. *)
Theorem empty_composition_queries_fail c :
  composition_of c [] →
  rows c = ContractViolation
    "gsCompositionOfPreconditionersOp::rows does not work for 0 operators."
  ∧ cols c = ContractViolation
    "gsCompositionOfPreconditionersOp::rows does not work for 0 operators."
  ∧ underlyingOp c = ContractViolation
    "gsCompositionOfPreconditionersOp::underlyingOp does not work for 0 operators."
  ∧ (∀ n, rows c ≠ Ok n) ∧ (∀ n, cols c ≠ Ok n) ∧ (∀ A, underlyingOp c ≠ Ok A)
  ∧ object_after c Rows = c ∧ object_after c Cols = c
  ∧ object_after c UnderlyingOp = c.
Proof.
  intros [Hinv Hops]. unfold invariant in Hinv. rewrite Hops in Hinv.
  unfold rows, cols, underlyingOp. rewrite Hinv. simpl.
  repeat split; done.
Qed.

(** C4: on a composition with at least one element, [rows()], [cols()] and
    [underlyingOp()] return what element 0 returns. *)
Theorem queries_delegate_to_first c P :
  invariant c →
  m_ops c !! 0%nat = Some (Some P) →
  rows c = Ok (gsPreconditionerOp.rows P)
  ∧ cols c = Ok (gsPreconditionerOp.cols P)
  ∧ underlyingOp c = Ok (gsPreconditionerOp.underlyingOp P).
Proof.
  intros Hinv Hfirst. unfold invariant in Hinv.
  assert (m_sz c > 0) as Hpos.
  { apply lookup_lt_Some in Hfirst. lia. }
  unfold rows, cols, underlyingOp, vec_at.
  rewrite bool_decide_eq_true_2 by done.
  change (Z.to_nat 0) with 0%nat. rewrite Hfirst. done.
Qed.

Lemma foldl_exact_step (solve : Mat → Mat) Ps (f x : Mat) :
  Ps ≠ [] →
  (∀ P, P ∈ Ps → ∀ f' x', gsPreconditionerOp.step P f' x' = solve f') →
  foldl (λ x' P, gsPreconditionerOp.step P f x') x Ps = solve f.
Proof.
  induction Ps as [|P Ps _] using rev_ind; [done|]. intros _ Hexact.
  rewrite foldl_app. simpl. apply Hexact. set_solver.
Qed.

(** C5: when every constituent's [step] sets [x] to the exact solution
    [solve f] of the system, one [step(f, x)] of a composition of n >= 1 of
    them leaves [x] equal to [solve f], whatever [x] was. *)
Theorem exact_constituents_exact_step c Ps (solve : Mat → Mat) (f x : Mat) :
  composition_of c Ps →
  Ps ≠ [] →
  (∀ P, P ∈ Ps → ∀ f' x', gsPreconditionerOp.step P f' x' = solve f') →
  step c (Frame f x) = Ok (Frame f (solve f)).
Proof.
  intros Hc Hne Hexact. rewrite (composition_run_step c Ps) by done.
  rewrite foldl_apply_step. simpl. by rewrite (foldl_exact_step solve).
Qed.

(** C6: [addOperator(op)] raises the size by one, keeps the stored operators
    at their indices and puts [op] behind them; from then on [step] is the
    old [step] followed by [op]'s [step], and [stepT] is [op]'s [stepT]
    followed by the old [stepT]. *)
Theorem addOperator_appends c Q :
  invariant c →
  m_sz (addOperator c (Some Q)) = m_sz c + 1
  ∧ length (m_ops (addOperator c (Some Q))) = S (length (m_ops c))
  ∧ (∀ (i : nat) op, m_ops c !! i = Some op →
       m_ops (addOperator c (Some Q)) !! i = Some op)
  ∧ m_ops (addOperator c (Some Q)) !! length (m_ops c) = Some (Some Q)
  ∧ (∀ Ps, composition_of c Ps →
       composition_of (addOperator c (Some Q)) (Ps ++ [Q]))
  ∧ (∀ s, step (addOperator c (Some Q)) s =
            step c s ≫= λ s', Ok (apply_step Q s'))
  ∧ (∀ s, stepT (addOperator c (Some Q)) s = stepT c (apply_stepT Q s)).
Proof.
  intros Hinv. split_and!.
  - done.
  - simpl. rewrite length_app. simpl. lia.
  - intros i op Hi. simpl. by apply lookup_app_l_Some.
  - simpl. by rewrite list_lookup_middle.
  - intros Ps. apply composition_of_addOperator.
  - intros s. rewrite !step_sweep by (done || by apply invariant_addOperator).
    simpl m_ops. rewrite sweep_app. done.
  - intros s. rewrite !stepT_sweep by (done || by apply invariant_addOperator).
    simpl m_ops. rewrite reverse_app. done.
Qed.

(** C7: [m_sz == m_ops.size()] holds after each of the four constructors
    and is kept by [addOperator]; [step], [stepT], [rows], [cols] and
    [underlyingOp] leave the object, hence both fields, as they are.  So the
    invariant holds after any sequence of calls on a constructed object. *)
Theorem size_invariant :
  invariant (@ctor Mat LinOp)
  ∧ (∀ ops, invariant (ctor_vector ops))
  ∧ (∀ op0 op1, invariant (ctor2 op0 op1))
  ∧ (∀ op0 op1 op2, invariant (ctor3 op0 op1 op2))
  ∧ (∀ c op, invariant c → invariant (addOperator c op))
  ∧ (∀ c s, object_after c (Step s) = c ∧ object_after c (StepT s) = c)
  ∧ (∀ c, object_after c Rows = c ∧ object_after c Cols = c
          ∧ object_after c UnderlyingOp = c)
  ∧ (∀ c (ms : list (member Mat LinOp)),
       invariant c → invariant (foldl object_after c ms)).
Proof.
  split_and!; try done.
  - apply invariant_addOperator.
  - intros c ms. revert c. induction ms as [|m ms IH]; intros c Hinv; [done|].
    simpl. apply IH. destruct m; simpl; [by apply invariant_addOperator|done..].
Qed.

(** C8: [step(f, x)] and [stepT(f, x)] leave [f] as it is and change [x]
    only: every frame they return has the right-hand side they were given,
    and on a composition of preconditioners they do return one. *)
Theorem step_stepT_preserve_rhs c s :
  (∀ s', step c s = Ok s' → rhs s' = rhs s)
  ∧ (∀ s', stepT c s = Ok s' → rhs s' = rhs s)
  ∧ (∀ Ps, composition_of c Ps →
       (∃ x', step c s = Ok (Frame (rhs s) x'))
       ∧ (∃ x', stepT c s = Ok (Frame (rhs s) x'))).
Proof.
  split_and!.
  - intros s'. by apply (step_loop_rhs (Z.to_nat (m_sz c - 0))).
  - intros s'. by apply (stepT_loop_rhs (Z.to_nat (m_sz c - 1 + 1))).
  - intros Ps Hc. split; eexists.
    + rewrite (composition_run_step c Ps) by done. by rewrite foldl_apply_step.
    + rewrite (composition_run_stepT c Ps) by done. by rewrite foldl_apply_stepT.
Qed.

(** C10: on the empty composition [step(f, x)] and [stepT(f, x)] return and
    leave both [x] and [f] as they are, while [rows()], [cols()] and
    [underlyingOp()] are contract violations. *)
Theorem empty_composition_steps c s :
  composition_of c [] →
  step c s = Ok s ∧ stepT c s = Ok s
  ∧ (∃ message, rows c = ContractViolation message)
  ∧ (∃ message, cols c = ContractViolation message)
  ∧ (∃ message, underlyingOp c = ContractViolation message).
Proof.
  intros Hc. split_and!.
  - by rewrite (composition_run_step c []).
  - by rewrite (composition_run_stepT c []).
  - destruct Hc as [Hinv Hops]. unfold invariant in Hinv. rewrite Hops in Hinv.
    unfold rows. rewrite Hinv. by eexists.
  - destruct Hc as [Hinv Hops]. unfold invariant in Hinv. rewrite Hops in Hinv.
    unfold cols. rewrite Hinv. by eexists.
  - destruct Hc as [Hinv Hops]. unfold invariant in Hinv. rewrite Hops in Hinv.
    unfold underlyingOp. rewrite Hinv. by eexists.
Qed.

End CompositionFacts.

(** * Properties of the single patch preconditioners *)

Section SinglePatchFacts.
Context {gsBasis gsBoundaryConditions Value : Type}.
Variable IntValue : Z → Value.
Variable strategy_index : dirichlet.strategy → Z.
Variable defaultOptions : gmap string Value.
Import gsSinglePatchPreconditioners.

Local Abbreviation new := (ctor IntValue strategy_index defaultOptions).
Local Abbreviation new_default :=
  (ctor_default IntValue strategy_index defaultOptions).

(** C9: the constructor from a basis, boundary conditions and a Dirichlet
    strategy stores the default options of the generic assembler with the
    entry [DirichletStrategy] set to the value of the strategy; every other
    entry is the default one.  Without the third argument the strategy is
    elimination. *)
Theorem ctor_stores_default_options
    (basis : gsBasis) (bc : gsBoundaryConditions) (d : dirichlet.strategy) :
  m_options (new basis bc d) !! "DirichletStrategy" =
    Some (IntValue (strategy_index d))
  ∧ (∀ label : string, label ≠ "DirichletStrategy" →
       m_options (new basis bc d) !! label = defaultOptions !! label)
  ∧ m_options (new basis bc d) =
      gsOptionList.setInt IntValue defaultOptions "DirichletStrategy"
        (strategy_index d)
  ∧ new_default basis bc = new basis bc dirichlet.elimination
  ∧ m_basis (new basis bc d) = basis
  ∧ m_bc (new basis bc d) = bc.
Proof.
  split_and!; try done.
  - simpl. unfold gsOptionList.setInt. apply lookup_insert_eq.
  - intros label Hlabel. simpl. unfold gsOptionList.setInt.
    by apply lookup_insert_ne.
Qed.

End SinglePatchFacts.

(** * The claims on sample objects *)

Section Instances.
Import gsCompositionOfPreconditionersOp Samples.

(** The loops run: three loggers forwards, backwards, and after
    [addOperator]. *)
Example step_loggers :
  step (ctor3 (Some (logger 1)) (Some (logger 2)) (Some (logger 3)))
       (Frame [0] []) = Ok (Frame [0] [1; 2; 3]).
Proof. reflexivity. Qed.

Example stepT_loggers :
  stepT (ctor3 (Some (logger 1)) (Some (logger 2)) (Some (logger 3)))
        (Frame [0] []) = Ok (Frame [0] [-3; -2; -1]).
Proof. reflexivity. Qed.

Example step_after_addOperator :
  step (addOperator (addOperator ctor (Some (logger 1))) (Some (logger 2)))
       (Frame [0] []) = Ok (Frame [0] [1; 2]).
Proof. reflexivity. Qed.

(** A null pointer in the vector is dereferenced by the loop. *)
Example step_null_pointer :
  step (ctor2 (Some (logger 1)) None) (Frame [0] []) = Undefined.
Proof. reflexivity. Qed.

(** Two Richardson sweeps for [2 x = 6] from [x = 0], with steps 1 and 2. *)
Example step_richardson :
  step (ctor2 (Some (richardson 2 1)) (Some (richardson 2 2))) (Frame 6 0)
  = Ok (Frame 6 (-6)).
Proof. reflexivity. Qed.

Lemma stepT_descending_order_witness :
  composition_of (ctor2 (Some (logger 1)) (Some (logger 2)))
    [logger 1; logger 2]
  ∧ stepT (ctor2 (Some (logger 1)) (Some (logger 2))) (Frame [0] [])
    = Ok (Frame [0] [-2; -1]).
Proof.
  split; [split; reflexivity|].
  destruct (stepT_descending_order
              (ctor2 (Some (logger 1)) (Some (logger 2)))
              [logger 1; logger 2] [0] []) as [_ Htwo]; [split; reflexivity|].
  exact (Htwo (logger 1) (logger 2) eq_refl).
Defined.

Lemma step_ascending_order_witness :
  composition_of (ctor_vector [Some (logger 1); Some (logger 2); Some (logger 3)])
    [logger 1; logger 2; logger 3]
  ∧ step (ctor_vector [Some (logger 1); Some (logger 2); Some (logger 3)])
      (Frame [0] []) = Ok (Frame [0] [1; 2; 3]).
Proof.
  split; [split; reflexivity|].
  apply (step_ascending_order _ [logger 1; logger 2; logger 3]).
  split; reflexivity.
Defined.

Lemma empty_composition_queries_fail_witness :
  composition_of (@ctor Z Z) [] ∧ ∀ n, rows (@ctor Z Z) ≠ Ok n.
Proof.
  split; [split; reflexivity|].
  apply (empty_composition_queries_fail (@ctor Z Z)). split; reflexivity.
Defined.

Lemma queries_delegate_to_first_witness :
  invariant (ctor2 (Some (logger 4)) (Some (logger 9)))
  ∧ rows (ctor2 (Some (logger 4)) (Some (logger 9))) = Ok 4
  ∧ cols (addOperator (ctor_vector [Some (logger 4)]) None) = Ok 4.
Proof.
  split; [reflexivity|]. split.
  - apply (queries_delegate_to_first _ (logger 4)); reflexivity.
  - apply (queries_delegate_to_first
             (addOperator (ctor_vector [Some (logger 4)]) None) (logger 4));
      reflexivity.
Defined.

Lemma exact_constituents_exact_step_witness :
  composition_of (ctor2 (Some exact_minus) (Some exact_minus))
    [exact_minus; exact_minus]
  ∧ step (ctor2 (Some exact_minus) (Some exact_minus)) (Frame 5 7)
    = Ok (Frame 5 (-5)).
Proof.
  split; [split; reflexivity|].
  apply (exact_constituents_exact_step _ [exact_minus; exact_minus] Z.opp 5 7).
  - split; reflexivity.
  - discriminate.
  - intros P HP f' x'.
    apply elem_of_cons in HP as [->|HP]; [reflexivity|].
    apply elem_of_cons in HP as [->|HP]; [reflexivity|].
    by apply elem_of_nil in HP.
Defined.

Lemma addOperator_appends_witness :
  invariant (ctor2 (Some (logger 1)) (Some (logger 2)))
  ∧ m_sz (addOperator (ctor2 (Some (logger 1)) (Some (logger 2)))
            (Some (logger 3))) = 3.
Proof.
  split; [reflexivity|].
  apply (addOperator_appends (ctor2 (Some (logger 1)) (Some (logger 2)))
           (logger 3)).
  reflexivity.
Defined.

Lemma size_invariant_witness :
  invariant (@ctor Z Z)
  ∧ invariant (foldl object_after (@ctor Z Z)
                 [AddOperator (Some (richardson 2 1)); Step (Frame 6 0);
                  AddOperator None; Rows]).
Proof.
  destruct (@size_invariant Z Z) as (Hctor & _ & _ & _ & _ & _ & _ & Hcalls).
  split; [exact Hctor|]. apply Hcalls. exact Hctor.
Defined.

Lemma step_stepT_preserve_rhs_witness :
  composition_of (ctor2 (Some (richardson 2 1)) (Some (richardson 2 2)))
    [richardson 2 1; richardson 2 2]
  ∧ ∃ x', step (ctor2 (Some (richardson 2 1)) (Some (richardson 2 2)))
            (Frame 6 0) = Ok (Frame 6 x').
Proof.
  split; [split; reflexivity|].
  destruct (step_stepT_preserve_rhs
              (ctor2 (Some (richardson 2 1)) (Some (richardson 2 2)))
              (Frame 6 0)) as (_ & _ & Hruns).
  destruct (Hruns [richardson 2 1; richardson 2 2]) as [Hstep _];
    [split; reflexivity|exact Hstep].
Defined.

Lemma empty_composition_steps_witness :
  composition_of (@ctor Z Z) []
  ∧ step (@ctor Z Z) (Frame 6 1) = Ok (Frame 6 1)
  ∧ stepT (@ctor Z Z) (Frame 6 1) = Ok (Frame 6 1).
Proof.
  split; [split; reflexivity|].
  destruct (empty_composition_steps (@ctor Z Z) (Frame 6 1))
    as (Hstep & HstepT & _); [split; reflexivity|].
  split; [exact Hstep|exact HstepT].
Defined.

Lemma ctor_stores_default_options_witness :
  "DirichletValues" ≠ "DirichletStrategy"
  ∧ gsSinglePatchPreconditioners.m_options
      (gsSinglePatchPreconditioners.ctor IntValue strategy_index defaultOptions
         tt tt dirichlet.nitsche) !! "DirichletValues" = Some (IntValue 100).
Proof.
  split; [discriminate|].
  destruct (ctor_stores_default_options IntValue strategy_index defaultOptions
              tt tt dirichlet.nitsche) as (_ & Hrest & _).
  rewrite (Hrest "DirichletValues"); [reflexivity|discriminate].
Defined.

End Instances.

(** * Further properties of the composition *)

Section CompositionLaws.
Context {Mat LinOp : Type}.
Import gsCompositionOfPreconditionersOp.

Local Abbreviation Op := (gsPreconditionerOp.t Mat LinOp).
Local Abbreviation BasePtr := (option (gsPreconditionerOp.t Mat LinOp)).
Local Abbreviation Comp := (gsCompositionOfPreconditionersOp.t Mat LinOp).

Implicit Types (c : Comp) (s : frame Mat) (P Q : Op) (Ps : list Op).
Implicit Types (op : BasePtr) (ops : list BasePtr).

(** ** Construction *)

Lemma addOperator_fold ops : ∀ c,
  foldl addOperator c ops =
    Build (m_sz c + Z.of_nat (length ops)) (m_ops c ++ ops).
Proof.
  induction ops as [|op ops IH]; intros [sz l]; simpl.
  - by rewrite Z.add_0_r, app_nil_r.
  - rewrite IH. simpl. f_equal; [lia|by rewrite <- app_assoc].
Qed.

(** X1: filling the empty composition by [addOperator], operator by
    operator, gives the object that the vector constructor builds from the
    same operators; the constructors for two and three operators build the
    objects of the vector constructor for [op0, op1] and [op0, op1, op2]. *)
Theorem constructions_agree :
  (∀ ops, foldl addOperator (@ctor Mat LinOp) ops = ctor_vector ops)
  ∧ (∀ op0 op1, ctor2 op0 op1 = ctor_vector [op0; op1])
  ∧ (∀ op0 op1 op2, ctor3 op0 op1 op2 = ctor_vector [op0; op1; op2])
  ∧ (∀ ops1 ops2,
       foldl addOperator (ctor_vector ops1) ops2 = ctor_vector (ops1 ++ ops2)).
Proof.
  split_and!; try done.
  - intros ops. by rewrite addOperator_fold.
  - intros ops1 ops2. rewrite addOperator_fold. unfold ctor_vector. simpl.
    f_equal. rewrite length_app. lia.
Qed.

(** ** What the loops can end in *)

Lemma element_no_violation ops (i : Z) message :
  vec_at ops i ≫= deref ≠ ContractViolation message.
Proof.
  unfold vec_at. destruct (decide (0 ≤ i)); [|done].
  destruct (ops !! Z.to_nat i) as [[P|]|]; done.
Qed.

Lemma step_loop_no_violation (n : nat) : ∀ c i s message,
  Z.to_nat (m_sz c - i) = n → step_loop c i s ≠ ContractViolation message.
Proof.
  induction n as [n IH] using lt_wf_ind. intros c i s message Hn.
  simp step_loop. destruct (decide (i < m_sz c)) as [Hlt|Hge]; simpl; [|done].
  pose proof (element_no_violation (m_ops c) i) as Helem.
  destruct (vec_at (m_ops c) i ≫= deref) as [P|message'|]; [| |done].
  - apply (IH (Z.to_nat (m_sz c - (i + 1)))); [lia|done].
  - by destruct (Helem message').
Qed.

Lemma stepT_loop_no_violation (n : nat) : ∀ c i s message,
  Z.to_nat (i + 1) = n → stepT_loop c i s ≠ ContractViolation message.
Proof.
  induction n as [n IH] using lt_wf_ind. intros c i s message Hn.
  simp stepT_loop. destruct (decide (i >= 0)) as [Hge|Hlt]; simpl; [|done].
  pose proof (element_no_violation (m_ops c) i) as Helem.
  destruct (vec_at (m_ops c) i ≫= deref) as [P|message'|]; [| |done].
  - apply (IH (Z.to_nat (i - 1 + 1))); [lia|done].
  - by destruct (Helem message').
Qed.

(** X2: [step] and [stepT] contain no assertion: whatever the object and
    the arguments, neither of them ends in a contract violation. *)
Theorem steps_raise_no_contract_violation c s message :
  step c s ≠ ContractViolation message
  ∧ stepT c s ≠ ContractViolation message.
Proof.
  split.
  - by apply (step_loop_no_violation (Z.to_nat (m_sz c - 0))).
  - by apply (stepT_loop_no_violation (Z.to_nat (m_sz c - 1 + 1))).
Qed.




(** ** How compositions compose *)

(** X4: the composition of the operators [ops1] followed by [ops2] sweeps
    like the composition of [ops1] and then the composition of [ops2];
    backwards it is the composition of [ops2] first.  This holds for all
    pointers, null ones included. *)
Theorem concatenation_law ops1 ops2 s :
  step (ctor_vector (ops1 ++ ops2)) s =
    step (ctor_vector ops1) s ≫= step (ctor_vector ops2)
  ∧ stepT (ctor_vector (ops1 ++ ops2)) s =
    stepT (ctor_vector ops2) s ≫= stepT (ctor_vector ops1).
Proof.
  split.
  - rewrite (step_sweep (ctor_vector (ops1 ++ ops2)))
      by apply invariant_ctor_vector.
    rewrite (step_sweep (ctor_vector ops1)) by apply invariant_ctor_vector.
    simpl m_ops. rewrite sweep_app.
    destruct (sweep apply_step ops1 s) as [s'| |]; simpl; [|done..].
    by rewrite (step_sweep (ctor_vector ops2)) by apply invariant_ctor_vector.
  - rewrite (stepT_sweep (ctor_vector (ops1 ++ ops2)))
      by apply invariant_ctor_vector.
    rewrite (stepT_sweep (ctor_vector ops2)) by apply invariant_ctor_vector.
    simpl m_ops. rewrite reverse_app, sweep_app.
    destruct (sweep apply_stepT (reverse ops2) s) as [s'| |]; simpl; [|done..].
    by rewrite (stepT_sweep (ctor_vector ops1)) by apply invariant_ctor_vector.
Qed.

Lemma foldl_ext_in {A B : Type} (g h : A → B → A) (l : list B) : ∀ a,
  (∀ b, b ∈ l → ∀ a', g a' b = h a' b) → foldl g a l = foldl h a l.
Proof.
  induction l as [|b l IH]; intros a Hgh; simpl; [done|].
  rewrite Hgh by set_solver. apply IH. intros b' Hb'. apply Hgh. set_solver.
Qed.

Lemma foldl_property {A B : Type} (I : A → Prop) (g : A → B → A)
    (l : list B) : ∀ a,
  (∀ b, b ∈ l → ∀ a', I a' → I (g a' b)) → I a → I (foldl g a l).
Proof.
  induction l as [|b l IH]; intros a Hg Ha; simpl; [done|].
  apply IH; [intros b' Hb'; apply Hg; set_solver|]. apply Hg; [set_solver|done].
Qed.

Lemma foldl_simulation {A A' B : Type} (h : A → A') (g : A → B → A)
    (g' : A' → B → A') (l : list B) : ∀ a,
  (∀ b, b ∈ l → ∀ a', h (g a' b) = g' (h a') b) →
  h (foldl g a l) = foldl g' (h a) l.
Proof.
  induction l as [|b l IH]; intros a Hsim; simpl; [done|].
  rewrite IH by (intros b' Hb'; apply Hsim; set_solver).
  by rewrite Hsim by set_solver.
Qed.

Lemma composition_of_ctor_vector Ps :
  composition_of (ctor_vector (Some <$> Ps)) Ps.
Proof. split; reflexivity. Qed.

(** X5: when every constituent is symmetric, that is its [stepT] does what
    its [step] does, [stepT] of the composition is [step] of the composition
    of the same operators in the reverse order. *)
Theorem symmetric_stepT_is_reversed_step c Ps (f x : Mat) :
  composition_of c Ps →
  (∀ P, P ∈ Ps → ∀ f' x',
     gsPreconditionerOp.stepT P f' x' = gsPreconditionerOp.step P f' x') →
  stepT c (Frame f x) = step (ctor_vector (Some <$> reverse Ps)) (Frame f x).
Proof.
  intros Hc Hsym. rewrite (composition_run_stepT c Ps) by done.
  rewrite (composition_run_step _ (reverse Ps))
    by apply composition_of_ctor_vector.
  f_equal. apply foldl_ext_in. intros P HP s'.
  unfold apply_stepT, apply_step. rewrite Hsym; [done|].
  by apply elem_of_reverse.
Qed.

(** X6: a property of the iterate that every constituent's [step] keeps,
    for the right-hand side at hand, is kept by [step] of the composition,
    and likewise for [stepT]; so a common fixed point of the constituents
    is a fixed point of the composition. *)
Theorem steps_keep_iterate_property c Ps (I : Mat → Prop) (f x : Mat) :
  composition_of c Ps →
  I x →
  ((∀ P, P ∈ Ps → ∀ x', I x' → I (gsPreconditionerOp.step P f x')) →
     ∃ x', step c (Frame f x) = Ok (Frame f x') ∧ I x')
  ∧ ((∀ P, P ∈ Ps → ∀ x', I x' → I (gsPreconditionerOp.stepT P f x')) →
     ∃ x', stepT c (Frame f x) = Ok (Frame f x') ∧ I x').
Proof.
  intros Hc Hx. split; intros Hkeep.
  - exists (foldl (λ x' P, gsPreconditionerOp.step P f x') x Ps). split.
    + rewrite (composition_run_step c Ps) by done.
      by rewrite foldl_apply_step.
    + by apply (foldl_property I).
  - exists (foldl (λ x' P, gsPreconditionerOp.stepT P f x') x (reverse Ps)).
    split.
    + rewrite (composition_run_stepT c Ps) by done.
      by rewrite foldl_apply_stepT.
    + apply (foldl_property I); [|done].
      intros P HP. apply Hkeep. by apply elem_of_reverse.
Qed.

(** X7: the iteration maps multiply.  Let [err] measure the iterate (as the
    error against the solution does) and let every constituent's [step] act
    on the measure as the map [E P] (as the iteration matrix I - P A does).
    Then [step] of the composition acts on the measure as the maps
    [E P_0], ..., [E P_{n-1}] applied in this order, and [stepT] as the maps
    of the constituents' [stepT] in the reverse order. *)
Theorem iteration_maps_compose {B : Type} (err : Mat → B)
    (E ET : Op → B → B) c Ps (f x : Mat) :
  composition_of c Ps →
  ((∀ P, P ∈ Ps → ∀ x',
      err (gsPreconditionerOp.step P f x') = E P (err x')) →
     ∃ x', step c (Frame f x) = Ok (Frame f x')
           ∧ err x' = foldl (λ e P, E P e) (err x) Ps)
  ∧ ((∀ P, P ∈ Ps → ∀ x',
      err (gsPreconditionerOp.stepT P f x') = ET P (err x')) →
     ∃ x', stepT c (Frame f x) = Ok (Frame f x')
           ∧ err x' = foldl (λ e P, ET P e) (err x) (reverse Ps)).
Proof.
  intros Hc. split; intros Hact.
  - exists (foldl (λ x' P, gsPreconditionerOp.step P f x') x Ps). split.
    + rewrite (composition_run_step c Ps) by done.
      by rewrite foldl_apply_step.
    + by apply foldl_simulation.
  - exists (foldl (λ x' P, gsPreconditionerOp.stepT P f x') x (reverse Ps)).
    split.
    + rewrite (composition_run_stepT c Ps) by done.
      by rewrite foldl_apply_stepT.
    + apply foldl_simulation.
      intros P HP. apply Hact. by apply elem_of_reverse.
Qed.

(** X8: [step] of a composition forgets what came before its last
    constituent when that one does: if the last constituent's [step] sets
    [x] to [y] whatever [x] was, so does [step] of the composition.  For
    [stepT] the same holds with the constituent at index 0. *)
Theorem steps_end_with_last_call c Ps (f x y : Mat) :
  composition_of c Ps →
  (∀ P, last Ps = Some P →
     (∀ x', gsPreconditionerOp.step P f x' = y) →
     step c (Frame f x) = Ok (Frame f y))
  ∧ (∀ P, head Ps = Some P →
     (∀ x', gsPreconditionerOp.stepT P f x' = y) →
     stepT c (Frame f x) = Ok (Frame f y)).
Proof.
  intros Hc. split; intros P HP Hy.
  - rewrite (composition_run_step c Ps) by done. rewrite foldl_apply_step.
    apply last_Some in HP as [Ps' ->]. rewrite foldl_app. simpl.
    by rewrite Hy.
  - rewrite (composition_run_stepT c Ps) by done. rewrite foldl_apply_stepT.
    destruct Ps as [|P' Ps']; [done|]. injection HP as ->.
    rewrite reverse_cons, foldl_app. simpl. by rewrite Hy.
Qed.

Lemma foldl_replicate {A B : Type} (g : A → B → A) (b : B) (k : nat) : ∀ a,
  foldl g a (replicate k b) = Nat.iter k (λ a', g a' b) a.
Proof.
  induction k as [|k IH]; intros a; [done|].
  rewrite Nat.iter_succ_r. simpl. apply IH.
Qed.

(** X9: a composition that holds the same preconditioner [k] times sweeps
    [k] times with it: [step] is the [k]-fold [step] of the preconditioner
    and [stepT] its [k]-fold [stepT]. *)
Theorem repeated_operator_iterates P (k : nat) (f x : Mat) :
  step (ctor_vector (replicate k (Some P))) (Frame f x) =
    Ok (Frame f (Nat.iter k (gsPreconditionerOp.step P f) x))
  ∧ stepT (ctor_vector (replicate k (Some P))) (Frame f x) =
    Ok (Frame f (Nat.iter k (gsPreconditionerOp.stepT P f) x)).
Proof.
  assert (composition_of (ctor_vector (replicate k (Some P))) (replicate k P))
    as Hc.
  { split; [reflexivity|]. simpl. by rewrite fmap_replicate. }
  split.
  - rewrite (composition_run_step _ (replicate k P)) by done.
    rewrite foldl_apply_step. simpl. by rewrite foldl_replicate.
  - rewrite (composition_run_stepT _ (replicate k P)) by done.
    rewrite foldl_apply_stepT, reverse_replicate. simpl.
    by rewrite foldl_replicate.
Qed.

(** ** The queries *)

(** X10: the queries look at the count and at element 0 only.  On a
    non-empty composition [addOperator] changes none of [rows()], [cols()]
    and [underlyingOp()], whatever is added; on the empty one it makes them
    the answers of the operator that is added. *)
Theorem queries_after_addOperator c op :
  invariant c →
  (m_ops c ≠ [] →
     rows (addOperator c op) = rows c
     ∧ cols (addOperator c op) = cols c
     ∧ underlyingOp (addOperator c op) = underlyingOp c)
  ∧ (m_ops c = [] → ∀ Q, op = Some Q →
     rows (addOperator c op) = Ok (gsPreconditionerOp.rows Q)
     ∧ cols (addOperator c op) = Ok (gsPreconditionerOp.cols Q)
     ∧ underlyingOp (addOperator c op) =
         Ok (gsPreconditionerOp.underlyingOp Q)).
Proof.
  intros Hinv. unfold invariant in Hinv.
  unfold rows, cols, underlyingOp, addOperator. simpl. rewrite Hinv. split.
  - intros Hne. destruct (m_ops c) as [|p l]; [done|].
    rewrite !bool_decide_eq_true_2 by (simpl; lia). done.
  - intros -> Q ->. done.
Qed.

(** X11: the assertion of the queries tests the count, not the pointer.
    On a non-empty composition whose element 0 is a null pointer, [rows()],
    [cols()] and [underlyingOp()] pass the assertion and dereference the
    null pointer. *)
Theorem queries_dereference_null c :
  invariant c →
  m_ops c !! 0%nat = Some None →
  rows c = Undefined ∧ cols c = Undefined ∧ underlyingOp c = Undefined.
Proof.
  intros Hinv Hfirst. unfold invariant in Hinv.
  assert (m_sz c > 0) as Hpos.
  { apply lookup_lt_Some in Hfirst. lia. }
  unfold rows, cols, underlyingOp, vec_at.
  rewrite bool_decide_eq_true_2 by done.
  change (Z.to_nat 0) with 0%nat. rewrite Hfirst. done.
Qed.

(** X12: a composition of symmetric constituents that reads the same in
    both directions is symmetric itself: its [stepT] does what its [step]
    does. *)
Theorem palindrome_is_symmetric c Ps (f x : Mat) :
  composition_of c Ps →
  reverse Ps = Ps →
  (∀ P, P ∈ Ps → ∀ f' x',
     gsPreconditionerOp.stepT P f' x' = gsPreconditionerOp.step P f' x') →
  stepT c (Frame f x) = step c (Frame f x).
Proof.
  intros Hc Hpal Hsym. rewrite (composition_run_stepT c Ps) by done.
  rewrite (composition_run_step c Ps) by done. rewrite Hpal.
  f_equal. apply foldl_ext_in. intros P HP s'.
  unfold apply_stepT, apply_step. by rewrite Hsym.
Qed.

End CompositionLaws.

(** * The further properties on sample objects *)

Section LawInstances.
Import gsCompositionOfPreconditionersOp Samples.

Lemma richardson_symmetric (Ps : list (gsPreconditionerOp.t Z Z)) :
  Forall (λ P, ∃ a tau, P = richardson a tau) Ps →
  ∀ P, P ∈ Ps → ∀ f' x',
    gsPreconditionerOp.stepT P f' x' = gsPreconditionerOp.step P f' x'.
Proof.
  intros Hall P HP f' x'. rewrite Forall_forall in Hall.
  destruct (Hall P HP) as (a & tau & ->). reflexivity.
Defined.


Lemma symmetric_stepT_is_reversed_step_witness :
  composition_of (ctor2 (Some (richardson 2 1)) (Some (richardson 2 2)))
    [richardson 2 1; richardson 2 2]
  ∧ stepT (ctor2 (Some (richardson 2 1)) (Some (richardson 2 2))) (Frame 6 0)
    = step (ctor2 (Some (richardson 2 2)) (Some (richardson 2 1))) (Frame 6 0).
Proof.
  split; [split; reflexivity|].
  apply (symmetric_stepT_is_reversed_step _ [richardson 2 1; richardson 2 2]).
  - split; reflexivity.
  - apply richardson_symmetric. repeat constructor; by do 2 eexists.
Defined.

Lemma steps_keep_iterate_property_witness :
  composition_of (ctor2 (Some (richardson 2 1)) (Some (richardson 2 2)))
    [richardson 2 1; richardson 2 2]
  ∧ ∃ x', step (ctor2 (Some (richardson 2 1)) (Some (richardson 2 2)))
            (Frame 6 3) = Ok (Frame 6 x') ∧ x' = 3.
Proof.
  split; [split; reflexivity|].
  destruct (steps_keep_iterate_property
              (ctor2 (Some (richardson 2 1)) (Some (richardson 2 2)))
              [richardson 2 1; richardson 2 2] (λ x', x' = 3) 6 3)
    as [Hstep _]; [split; reflexivity|reflexivity|].
  apply Hstep. intros P HP x' ->.
  apply elem_of_cons in HP as [->|HP]; [reflexivity|].
  apply elem_of_cons in HP as [->|HP]; [reflexivity|].
  by apply elem_of_nil in HP.
Defined.

Lemma iteration_maps_compose_witness :
  composition_of (ctor2 (Some (richardson 2 1)) (Some (richardson 2 2)))
    [richardson 2 1; richardson 2 2]
  ∧ ∃ x', step (ctor2 (Some (richardson 2 1)) (Some (richardson 2 2)))
            (Frame 6 0) = Ok (Frame 6 x')
          ∧ x' - 3 = (1 - 2 * 2) * ((1 - 1 * 2) * (0 - 3)).
Proof.
  split; [split; reflexivity|].
  destruct (iteration_maps_compose (λ x', x' - 3)
              (λ P e, (1 - gsPreconditionerOp.step P 1 0
                             * gsPreconditionerOp.underlyingOp P) * e)
              (λ P e, e)
              (ctor2 (Some (richardson 2 1)) (Some (richardson 2 2)))
              [richardson 2 1; richardson 2 2] 6 0)
    as [Hstep _]; [split; reflexivity|].
  apply Hstep. intros P HP x'.
  apply elem_of_cons in HP as [->|HP]; [simpl; lia|].
  apply elem_of_cons in HP as [->|HP]; [simpl; lia|].
  by apply elem_of_nil in HP.
Defined.

Lemma steps_end_with_last_call_witness :
  composition_of (ctor2 (Some (richardson 2 1)) (Some exact_minus))
    [richardson 2 1; exact_minus]
  ∧ step (ctor2 (Some (richardson 2 1)) (Some exact_minus)) (Frame 6 0)
    = Ok (Frame 6 (-6)).
Proof.
  split; [split; reflexivity|].
  destruct (steps_end_with_last_call
              (ctor2 (Some (richardson 2 1)) (Some exact_minus))
              [richardson 2 1; exact_minus] 6 0 (-6))
    as [Hstep _]; [split; reflexivity|].
  apply (Hstep exact_minus); reflexivity.
Defined.

Lemma queries_after_addOperator_witness :
  invariant (ctor_vector [Some (logger 4)])
  ∧ rows (addOperator (ctor_vector [Some (logger 4)]) (Some (logger 9)))
    = rows (ctor_vector [Some (logger 4)]).
Proof.
  split; [reflexivity|].
  destruct (queries_after_addOperator (ctor_vector [Some (logger 4)])
              (Some (logger 9))) as [Hsame _]; [reflexivity|].
  apply Hsame. discriminate.
Defined.

Lemma queries_dereference_null_witness :
  invariant (ctor2 None (Some (logger 1)))
  ∧ m_ops (ctor2 None (Some (logger 1))) !! 0%nat = Some None
  ∧ rows (ctor2 None (Some (logger 1))) = Undefined.
Proof.
  split; [reflexivity|]. split; [reflexivity|].
  apply (queries_dereference_null (ctor2 None (Some (logger 1))));
    reflexivity.
Defined.

Lemma palindrome_is_symmetric_witness :
  composition_of
    (ctor3 (Some (richardson 2 1)) (Some (richardson 2 2))
       (Some (richardson 2 1)))
    [richardson 2 1; richardson 2 2; richardson 2 1]
  ∧ stepT (ctor3 (Some (richardson 2 1)) (Some (richardson 2 2))
             (Some (richardson 2 1))) (Frame 6 0)
    = step (ctor3 (Some (richardson 2 1)) (Some (richardson 2 2))
              (Some (richardson 2 1))) (Frame 6 0).
Proof.
  split; [split; reflexivity|].
  apply (palindrome_is_symmetric _
           [richardson 2 1; richardson 2 2; richardson 2 1]).
  - split; reflexivity.
  - reflexivity.
  - apply richardson_symmetric. repeat constructor; by do 2 eexists.
Defined.

End LawInstances.
